(** * redux-component-host: the ComponentHost class of src/lib/index.tsx

    A shallow embedding of the [ComponentHost] class and of the part/section
    registry it carries, followed by the properties of that registry.

    JavaScript objects are references, so the class is modelled over a small
    world: a heap of host instances, a heap of plain objects (the
    [initialState] hashes) and the table of stores created through
    [Redux.createStore].  Methods are computations in a state monad over that
    world and return what the source returns ([this] is the receiver's
    reference).

    [loadComponents] and [render] hand the host to the module system and to
    the renderer; they are modelled by the calls they make on those
    collaborators. *)

From stdpp Require Import base option list strings gmap functions.

(** ** External collaborators *)

(** The state-container libraries ([redux], [side-effects]).  The host only
    threads their values around, so their types and functions are taken as an
    interface. *)
Class StateContainer := {
  Value : Type;
  ReducerFragment : Type;
  Effector : Type;
  Enhancer : Type;
  Middleware : Type;
  Reducer : Type;
  (** [SideEffects.combineReducers(...reducers)] *)
  combineReducers : list ReducerFragment → Reducer;
  (** [SideEffects.installSideEffects(...effectors)] *)
  installSideEffects : list Effector → Enhancer;
  (** [Redux.applyMiddleware(...middleware)] *)
  applyMiddleware : list Middleware → Enhancer;
  (** [Redux.compose.apply(undefined, enhancers)] *)
  compose : list Enhancer → Enhancer;
  (** [window['__REDUX_DEVTOOLS_EXTENSION__']]: absent, or a function that
      yields an enhancer when called. *)
  reduxTools : option (unit → Enhancer);
}.

(** The route guard of [react-router-dom]: does the route pattern [path],
    with the given [exact] flag, match the current location [pathname]? *)
Class Router := matchPath : string → string → bool → bool.

Section ComponentHost.

Context `{SC : StateContainer} `{RT : Router} {View : Type}.

(** ** Data model *)

(** References into the world's heaps. *)
Definition ref := nat.

(** [interface Part] *)
Record Part := {
  section : string;
  path : string;
  Component : View;
  exact : bool;
}.

(** The fields of [class ComponentHost].  The arrays are owned by the host
    and held by value; [initialState] is a reference to a plain object,
    because [createStore] hands that very object to [Redux.createStore];
    [_store] is [None] while the private field is still unset.  The field
    [isDevelopment], declared in the earlier revision of the class, is never
    assigned or read and carries no state. *)
Record ComponentHost := {
  initialState : ref;
  reducers : list ReducerFragment;
  effectors : list Effector;
  enhancers : list Enhancer;
  middleware : list Middleware;
  parts : list Part;
  _store : option ref;
}.

(** One call [Redux.createStore(reducer, preloadedState, enhancer)]; the
    preloaded state is passed by reference. *)
Record StoreCall := {
  call_reducer : Reducer;
  call_preloadedState : ref;
  call_enhancer : Enhancer;
}.

(** The world: host instances, plain objects, the stores created so far (a
    store is identified by its position in the table) and the next free
    reference. *)
Record World := {
  hosts : ref → ComponentHost;
  objects : ref → gmap string Value;
  stores : list StoreCall;
  next : ref;
}.

(** What [getSection] builds: [<Section>{routes}</Section>] where [Section]
    is [Switch] or ['div'] and every child is a [<Route .../>]. *)
Inductive SectionType := Switch | div.

Record RouteElement := {
  r_exact : bool;
  r_path : string;
  r_component : View;
  r_key : nat;
}.

Record SectionElement := {
  type : SectionType;
  children : list RouteElement;
}.

(** ** The state monad of method calls *)

Definition M (A : Type) : Type := World → A * World.

#[global] Instance M_ret : MRet M := λ A (a : A) w, (a, w).
#[global] Instance M_bind : MBind M :=
  λ A B (f : A → M B) (m : M A) w, let '(a, w') := m w in f a w'.

Definition readHost (this : ref) : M ComponentHost := λ w, (hosts w this, w).

Definition modifyHost (this : ref) (f : ComponentHost → ComponentHost) : M unit :=
  λ w, (tt, {| hosts := <[this := f (hosts w this)]> (hosts w);
               objects := objects w; stores := stores w; next := next w |}).

Definition modifyObject (o : ref) (f : gmap string Value → gmap string Value) : M unit :=
  λ w, (tt, {| hosts := hosts w;
               objects := <[o := f (objects w o)]> (objects w);
               stores := stores w; next := next w |}).

(** [{}]: a fresh empty object. *)
Definition newObject : M ref :=
  λ w, (next w, {| hosts := hosts w;
                   objects := <[next w := ∅]> (objects w);
                   stores := stores w; next := S (next w) |}).

(** Allocation of the instance that a [new] expression initialises. *)
Definition newHost (h : ComponentHost) : M ref :=
  λ w, (next w, {| hosts := <[next w := h]> (hosts w);
                   objects := objects w;
                   stores := stores w; next := S (next w) |}).

(** [Redux.createStore(reducer, preloadedState, enhancer)]: a new store. *)
Definition Redux_createStore (reducer : Reducer) (preloadedState : ref)
    (enhancer : Enhancer) : M ref :=
  λ w, (length (stores w),
        {| hosts := hosts w; objects := objects w;
           stores := stores w ++ [ {| call_reducer := reducer;
                                      call_preloadedState := preloadedState;
                                      call_enhancer := enhancer |} ];
           next := next w |}).

(** Field assignments [this.f = v]. *)
Definition set_reducers (v : list ReducerFragment) (h : ComponentHost) :=
  {| initialState := initialState h; reducers := v; effectors := effectors h;
     enhancers := enhancers h; middleware := middleware h; parts := parts h;
     _store := _store h |}.
Definition set_effectors (v : list Effector) (h : ComponentHost) :=
  {| initialState := initialState h; reducers := reducers h; effectors := v;
     enhancers := enhancers h; middleware := middleware h; parts := parts h;
     _store := _store h |}.
Definition set_enhancers (v : list Enhancer) (h : ComponentHost) :=
  {| initialState := initialState h; reducers := reducers h;
     effectors := effectors h; enhancers := v; middleware := middleware h;
     parts := parts h; _store := _store h |}.
Definition set_middleware (v : list Middleware) (h : ComponentHost) :=
  {| initialState := initialState h; reducers := reducers h;
     effectors := effectors h; enhancers := enhancers h; middleware := v;
     parts := parts h; _store := _store h |}.
Definition set_parts (v : list Part) (h : ComponentHost) :=
  {| initialState := initialState h; reducers := reducers h;
     effectors := effectors h; enhancers := enhancers h;
     middleware := middleware h; parts := v; _store := _store h |}.
Definition set_store (v : option ref) (h : ComponentHost) :=
  {| initialState := initialState h; reducers := reducers h;
     effectors := effectors h; enhancers := enhancers h;
     middleware := middleware h; parts := parts h; _store := v |}.

(** ** The methods of [ComponentHost] *)

(** [constructor()] *)
Definition constructor : M ref :=
  o ← newObject;
  newHost {| initialState := o; reducers := []; effectors := [];
             enhancers := []; middleware := []; parts := []; _store := None |}.

(** [setInitialState(key, value)]: the assignment [initialState[key] = value]
    on a plain object creates or replaces the object's own property [key].
    The one key for which this is not so is ['__proto__'], which JavaScript
    routes to the prototype accessor instead; the properties below that
    depend on what an assignment stores leave that key out. *)
Definition setInitialState (this : ref) (key : string) (value : Value) : M ref :=
  h ← readHost this;
  modifyObject (initialState h) (λ o, <[key := value]> o);;
  mret this.

(** [addReducer(reducer)] *)
Definition addReducer (this : ref) (reducer : ReducerFragment) : M ref :=
  modifyHost this (λ h, set_reducers (reducers h ++ [reducer]) h);;
  mret this.

(** [addEffector(effector)] *)
Definition addEffector (this : ref) (effector : Effector) : M ref :=
  modifyHost this (λ h, set_effectors (effectors h ++ [effector]) h);;
  mret this.

(** [addEnhancer(enhancer)] *)
Definition addEnhancer (this : ref) (enhancer : Enhancer) : M ref :=
  modifyHost this (λ h, set_enhancers (enhancers h ++ [enhancer]) h);;
  mret this.

(** [addMiddleware(middleware)] *)
Definition addMiddleware (this : ref) (mw : Middleware) : M ref :=
  modifyHost this (λ h, set_middleware (middleware h ++ [mw]) h);;
  mret this.

(** [addPart(path, Component, section = 'main', exact = true)]; an omitted
    argument is [None]. *)
Definition addPart (this : ref) (path0 : string) (Component0 : View)
    (section0 : option string) (exact0 : option bool) : M ref :=
  let section1 := default "main" section0 in
  let exact1 := default true exact0 in
  modifyHost this (λ h,
    set_parts (parts h ++ [ {| section := section1; path := path0;
                               Component := Component0; exact := exact1 |} ]) h);;
  mret this.

(** [private createStore()] *)
Definition createStore (this : ref) : M ref :=
  h ← readHost this;
  let reducer := combineReducers (reducers h) in
  let enhancers0 := installSideEffects (effectors h) :: enhancers h in
  let enhancers1 :=
    if bool_decide (length (middleware h) ≠ 0)
    then enhancers0 ++ [applyMiddleware (middleware h)]
    else enhancers0 in
  let enhancers2 :=
    match reduxTools with
    | Some tools => enhancers1 ++ [tools ()]
    | None => enhancers1
    end in
  let enhancer := compose enhancers2 in
  Redux_createStore reducer (initialState h) enhancer.

(** [get store()] *)
Definition store (this : ref) : M ref :=
  h ← readHost this;
  match _store h with
  | None =>
      s ← createStore this;
      modifyHost this (set_store (Some s));;
      mret s
  | Some s => mret s
  end.

(** The [<Route exact path component key />] built for a part at index [i]. *)
Definition Route (i : nat) (part : Part) : RouteElement :=
  {| r_exact := exact part; r_path := path part;
     r_component := Component part; r_key := i |}.

(** [getSection(name, exclusive = true)] *)
Definition getSection (this : ref) (name : string) (exclusive : option bool)
    : M SectionElement :=
  h ← readHost this;
  let Section0 := if default true exclusive then Switch else div in
  let parts0 := filter (λ part, section part = name) (parts h) in
  mret {| type := Section0; children := imap Route parts0 |}.

(** ** Rendering a section

    [Switch], ['div'] and [Route] are components of [react-router-dom] and
    of the renderer; their code is not part of this repository, so what they
    display is taken from the specification's description of them. *)

(** Does the guard of a [<Route>] pass at the current location? *)
Definition routeMatches (pathname : string) (r : RouteElement) : bool :=
  matchPath pathname (r_path r) (r_exact r).

(** Modelled from the spec: the rendering of the router's [Route]
    component, which is missing from the sources.  A route-guarded wrapper
    renders its component when its guard passes against the current path and
    nothing otherwise. *)
Definition renderRoute (pathname : string) (r : RouteElement) : list View :=
  if routeMatches pathname r then [r_component r] else [].

(** Modelled from the spec: the rendering of the router's [Switch]
    component, which is missing from the sources.  The exclusive container
    evaluates each child's guard in order and renders only the first child
    whose guard passes. *)
Definition renderSwitch (pathname : string) (rs : list RouteElement) : list View :=
  match list_find (λ r : RouteElement, routeMatches pathname r) rs with
  | Some (_, r) => [r_component r]
  | None => []
  end.

(** Modelled from the spec: the rendering of a ['div'] element with [Route]
    children, which is missing from the sources.  The non-exclusive container
    is a plain grouping wrapper: every child renders on its own guard. *)
Definition renderDiv (pathname : string) (rs : list RouteElement) : list View :=
  rs ≫= renderRoute pathname.

(** Modelled from the spec: the rendering of the element built by
    [getSection], by the renderer missing from the sources.  The views shown
    at a location, in display order. *)
Definition renderSection (pathname : string) (el : SectionElement) : list View :=
  match type el with
  | Switch => renderSwitch pathname (children el)
  | div => renderDiv pathname (children el)
  end.

(** ** Sequences of calls *)

(** The arguments of one [addPart] call. *)
Record AddPartArgs := {
  arg_path : string;
  arg_Component : View;
  arg_section : option string;
  arg_exact : option bool;
}.

(** The part that [addPart] pushes for given arguments. *)
Definition partOf (a : AddPartArgs) : Part :=
  {| section := default "main" (arg_section a); path := arg_path a;
     Component := arg_Component a; exact := default true (arg_exact a) |}.

(** [host.addPart(...).addPart(...)...]: each call is made on the reference
    returned by the previous one. *)
Fixpoint addParts (this : ref) (calls : list AddPartArgs) : M ref :=
  match calls with
  | [] => mret this
  | a :: calls' =>
      this' ← addPart this (arg_path a) (arg_Component a) (arg_section a) (arg_exact a);
      addParts this' calls'
  end.

(** The operations a client can invoke on a host. *)
Inductive Op :=
  | OpSetInitialState (key : string) (value : Value)
  | OpAddReducer (reducer : ReducerFragment)
  | OpAddEffector (effector : Effector)
  | OpAddEnhancer (enhancer : Enhancer)
  | OpAddMiddleware (mw : Middleware)
  | OpAddPart (a : AddPartArgs)
  | OpGetSection (name : string) (exclusive : option bool)
  | OpStore.

Definition perform (this : ref) (op : Op) : M unit :=
  match op with
  | OpSetInitialState key value => setInitialState this key value;; mret ()
  | OpAddReducer reducer => addReducer this reducer;; mret ()
  | OpAddEffector effector => addEffector this effector;; mret ()
  | OpAddEnhancer enhancer => addEnhancer this enhancer;; mret ()
  | OpAddMiddleware mw => addMiddleware this mw;; mret ()
  | OpAddPart a =>
      addPart this (arg_path a) (arg_Component a) (arg_section a) (arg_exact a);;
      mret ()
  | OpGetSection name exclusive => getSection this name exclusive;; mret ()
  | OpStore => store this;; mret ()
  end.

Fixpoint performAll (this : ref) (ops : list Op) : M unit :=
  match ops with
  | [] => mret ()
  | op :: ops' => perform this op;; performAll this ops'
  end.

(** The parts pushed by a sequence of operations, in call order. *)
Fixpoint addedParts (ops : list Op) : list Part :=
  match ops with
  | [] => []
  | OpAddPart a :: ops' => partOf a :: addedParts ops'
  | _ :: ops' => addedParts ops'
  end.

(** The scenario of the specification: a new host on which P1 = ('/a',
    exact) and then P2 = ('/', not exact) are registered in section 'main',
    resolved with the given exclusivity. *)
Definition mainScenario (V1 V2 : View) (exclusive : option bool) : M SectionElement :=
  host ← constructor;
  host ← addPart host "/a" V1 (Some "main") (Some true);
  host ← addPart host "/" V2 (Some "main") (Some false);
  getSection host "main" exclusive.

(** The store-creation record that [createStore] would submit for a host. *)
Definition storeCallOf (h : ComponentHost) : StoreCall :=
  let enhancers0 := installSideEffects (effectors h) :: enhancers h in
  let enhancers1 :=
    if bool_decide (length (middleware h) ≠ 0)
    then enhancers0 ++ [applyMiddleware (middleware h)]
    else enhancers0 in
  let enhancers2 :=
    match reduxTools with
    | Some tools => enhancers1 ++ [tools ()]
    | None => enhancers1
    end in
  {| call_reducer := combineReducers (reducers h);
     call_preloadedState := initialState h;
     call_enhancer := compose enhancers2 |}.

End ComponentHost.

Arguments Part : clear implicits.
Arguments ComponentHost {_} _.
Arguments World {_} _.
Arguments RouteElement : clear implicits.
Arguments SectionElement : clear implicits.
Arguments AddPartArgs : clear implicits.
Arguments Op {_} _.

(** ** Concrete collaborators, used to run the model *)

(** A symbolic state container: reducers and enhancers are the lists of
    what they were built from. *)
Definition listContainer : StateContainer := {|
  Value := nat;
  ReducerFragment := nat;
  Effector := nat;
  Enhancer := list nat;
  Middleware := nat;
  Reducer := list nat;
  combineReducers := id;
  installSideEffects := id;
  applyMiddleware := id;
  compose := λ l, mjoin l;
  reduxTools := None;
|}.

Fixpoint endsWithSlash (s : string) : bool :=
  match s with
  | EmptyString => false
  | String c EmptyString => Ascii.eqb c (Ascii.ascii_of_nat 47)
  | String _ s' => endsWithSlash s'
  end.

(** A guard for literal patterns: an exact route matches the identical
    pathname, any other route matches the pathnames it is a segment prefix
    of. *)
Definition literalRouter : Router := λ pathname path0 exact0,
  if exact0 then String.eqb pathname path0
  else String.eqb pathname path0
       || String.prefix (if endsWithSlash path0 then path0 else path0 +:+ "/") pathname.

(** A world in which nothing has been allocated yet. *)
Definition emptyWorld `{SC : StateContainer} (View : Type) : World View := {|
  hosts := λ _, {| initialState := 0; reducers := []; effectors := [];
                   enhancers := []; middleware := []; parts := [];
                   _store := None |};
  objects := λ _, ∅;
  stores := [];
  next := 0;
|}.

(** The end-to-end scenario of the specification: a new host (reference 1)
    with two navigation links in section 'nav' and one page in the default
    section. *)
Definition usersWorld : World (SC := listContainer) string :=
  ((host ← constructor;
    host ← addPart host "/" "NavHome" (Some "nav") (Some false);
    host ← addPart host "/users" "NavUsers" (Some "nav") (Some false);
    addPart host "/users" "UsersPage" None None)
     (emptyWorld (SC := listContainer) string)).2.

(** Operations that do not register parts. *)
Definition readingOps : list (Op (SC := listContainer) string) :=
  [OpStore; OpSetInitialState (SC := listContainer) "users" 0;
   OpGetSection "nav" None].


(** An [addPart] call relying on both defaults. *)
Definition otherCall : Op (SC := listContainer) string :=
  OpAddPart {| arg_path := "/"; arg_Component := "Other";
               arg_section := None; arg_exact := None |}.

(** ** The rest of the class: [render] and [loadComponents] *)

Section Application.

Context `{SC : StateContainer} {View History InitFn RunResult : Type}.

(** The page component given to [render]: the module's own
    [DummyComponent], which shows its children inside a ['div'], or a
    component of the caller. *)
Inductive PageComponent :=
  | DummyComponent
  | CallerPage (Page : View).

(** The tree built by [render]:
    [<Provider store><ConnectedRouter history><Page>{section}</Page>...]. *)
Record Content := {
  provider_store : ref;
  router_history : History;
  page : PageComponent;
  page_children : SectionElement View;
}.

(** The calls [render] makes on the store and on the renderer.  The root
    element is named by the id passed to [document.getElementById]. *)
Inductive Effect :=
  | store_dispatch (s : ref) (actionType : string)
  | ReactDOM_render (content : Content) (rootId : string).

(** [render(history, Page = DummyComponent, rootId = 'root')]; the result is
    the sequence of external calls, in the order they are made. *)
Definition render (this : ref) (history : History) (Page : option View)
    (rootId : option string) : M (View := View) (list Effect) :=
  let Page0 := from_option CallerPage DummyComponent Page in
  let rootId0 := default "root" rootId in
  s ← store this;
  let dispatched := store_dispatch s "app/RENDER" in
  s' ← store this;
  main ← getSection this "main" None;
  let content := {| provider_store := s'; router_history := history;
                    page := Page0; page_children := main |} in
  mret [dispatched; ReactDOM_render content rootId0].

(** A JavaScript value found under a property of a module: [undefined] when
    the property is absent, [null], or anything else. *)
Inductive JsValue :=
  | js_undefined
  | js_null
  | js_value (init : InitFn).

(** [init != null] *)
Definition notNull (init : JsValue) : bool :=
  match init with
  | js_undefined | js_null => false
  | js_value _ => true
  end.

(** A webpack require context: [keys()] and, for the module required under
    a key, the value of each of its properties. *)
Record RequireContext := {
  keys : list string;
  required : string → string → JsValue;
}.

(** [new WaitForFunction().run(initFns, host)], of [wait-for-dependencies]. *)
Variable wait_run : list JsValue → ref → M (View := View) RunResult.

(** [require['context'](directory, useSubdirectories, regExp)] and the
    module's [__dirname]. *)
Variable require_context : string → bool → string → RequireContext.
Variable __dirname : string.

(** [loadComponents(requireContext, fnName = 'initReduxComponent')], the
    documented revision. *)
Definition loadComponents (this : ref) (requireContext : RequireContext)
    (fnName : option string) : M (View := View) RunResult :=
  let fnName0 := default "initReduxComponent" fnName in
  let initFns :=
    filter (λ init, notNull init)
      ((λ key, required requireContext key "initReduxComponent")
         <$> keys requireContext) in
  wait_run initFns this.

(** [loadComponents(dirname)], the earlier revision. *)
Definition loadComponents_dirname (this : ref) (dirname : string)
    : M (View := View) RunResult :=
  let req := require_context __dirname true "[\/\.]component$" in
  let initFns :=
    filter (λ init, notNull init)
      ((λ key, required req key "initReduxComponent") <$> keys req) in
  wait_run initFns this.

(** ** What a sequence of operations registers, kind by kind *)

Fixpoint addedReducers (ops : list (Op View)) : list ReducerFragment :=
  match ops with
  | [] => []
  | OpAddReducer reducer :: ops' => reducer :: addedReducers ops'
  | _ :: ops' => addedReducers ops'
  end.

Fixpoint addedEffectors (ops : list (Op View)) : list Effector :=
  match ops with
  | [] => []
  | OpAddEffector effector :: ops' => effector :: addedEffectors ops'
  | _ :: ops' => addedEffectors ops'
  end.

Fixpoint addedEnhancers (ops : list (Op View)) : list Enhancer :=
  match ops with
  | [] => []
  | OpAddEnhancer enhancer :: ops' => enhancer :: addedEnhancers ops'
  | _ :: ops' => addedEnhancers ops'
  end.

Fixpoint addedMiddleware (ops : list (Op View)) : list Middleware :=
  match ops with
  | [] => []
  | OpAddMiddleware mw :: ops' => mw :: addedMiddleware ops'
  | _ :: ops' => addedMiddleware ops'
  end.

(** The assignments [initialState[key] = value] of a sequence of operations,
    applied in call order to an object. *)
Fixpoint assignAll (o : gmap string Value) (ops : list (Op View))
    : gmap string Value :=
  match ops with
  | [] => o
  | OpSetInitialState key value :: ops' => assignAll (<[key := value]> o) ops'
  | _ :: ops' => assignAll o ops'
  end.


(** The store reads among a sequence of operations. *)
Definition readsStore (op : Op View) : bool :=
  match op with
  | OpStore => true
  | _ => false
  end.

End Application.

Arguments PageComponent : clear implicits.
Arguments Content : clear implicits.
Arguments Effect : clear implicits.
Arguments JsValue : clear implicits.
Arguments RequireContext : clear implicits.

(** A require context with three modules; the second exports nothing under
    [initReduxComponent] and the third exports [null]. *)
Definition threeModules : RequireContext nat := {|
  keys := ["./users/component"; "./legacy.component"; "./empty.component";
           "./nav.component"];
  required := λ key property,
    if String.eqb property "initReduxComponent" then
      if String.eqb key "./users/component" then js_value 1
      else if String.eqb key "./nav.component" then js_value 2
      else if String.eqb key "./empty.component" then js_null
      else js_undefined
    else if String.eqb property "setup" then
      if String.eqb key "./legacy.component" then js_value 3 else js_undefined
    else js_undefined;
|}.

(** A waiter that reports what it was asked to run. *)
Definition reportingWaiter (View : Type)
    : list (JsValue nat) → ref → M (SC := listContainer) (View := View)
                                   (list (JsValue nat) * ref) :=
  λ initFns host, mret (initFns, host).

(** Registrations of every kind, interleaved. *)
Definition mixedOps : list (Op (SC := listContainer) string) :=
  [OpAddReducer (SC := listContainer) 1;
   OpSetInitialState (SC := listContainer) "users" 0;
   OpAddMiddleware (SC := listContainer) 5;
   OpAddPart {| arg_path := "/users"; arg_Component := "UsersPage";
                arg_section := None; arg_exact := None |};
   OpAddReducer (SC := listContainer) 2;
   OpSetInitialState (SC := listContainer) "users" 9;
   OpGetSection "main" None;
   OpAddEnhancer (SC := listContainer) [4];
   OpAddEffector (SC := listContainer) 3].

(** Two new hosts (references 1 and 3) in an otherwise empty world. *)
Definition twoHostsWorld : World (SC := listContainer) string :=
  (constructor (constructor (emptyWorld (SC := listContainer) string)).2).2.

(** A require-context function that knows one directory. *)
Definition oneDirectory : string → bool → string → RequireContext nat :=
  λ directory useSubdirectories regExp,
    if String.eqb directory "/app/lib" then threeModules
    else {| keys := []; required := λ _ _, js_undefined |}.


(** * Properties *)

Section Properties.

Context `{SC : StateContainer} `{RT : Router} {View : Type}.

Implicit Types (w : World View) (this : ref) (name : string).
Implicit Types (p : Part View) (a : AddPartArgs View).

(** A part belongs to the section and its route guard passes at the
    location. *)
Local Abbreviation partMatches pathname name :=
  (λ p : Part View, section p = name ∧ matchPath pathname (path p) (exact p)).

(** ** Running single methods *)

Lemma bind_run {A B : Type} (m : M A) (f : A → M B) w :
  (m ≫= f) w = f (m w).1 (m w).2.
Proof. unfold mbind, M_bind. by destruct (m w). Qed.

(** Run one method call down to the heaps of the resulting world. *)
Ltac run_method :=
  unfold perform, setInitialState, addReducer, addEffector, addEnhancer,
    addMiddleware, addPart, getSection;
  rewrite ?bind_run;
  unfold modifyHost, modifyObject, readHost, mret, M_ret;
  cbn [fst snd hosts objects stores next].

Lemma getSection_run w this name (exclusive : option bool) :
  getSection this name exclusive w =
    ({| type := if default true exclusive then Switch else div;
        children := imap Route (filter (λ p, section p = name) (parts (hosts w this))) |},
     w).
Proof. reflexivity. Qed.

Lemma addPart_result w this (path0 : string) (C0 : View) section0 exact0 :
  (addPart this path0 C0 section0 exact0 w).1 = this.
Proof. reflexivity. Qed.

Lemma addPart_host w this (path0 : string) (C0 : View) section0 exact0 :
  hosts (addPart this path0 C0 section0 exact0 w).2 this =
    set_parts (parts (hosts w this) ++
                 [ {| section := default "main" section0; path := path0;
                      Component := C0; exact := default true exact0 |} ])
              (hosts w this).
Proof. cbn. apply fn_lookup_insert. Qed.

Lemma addPart_other_host w this other (path0 : string) (C0 : View) section0 exact0 :
  other ≠ this →
  hosts (addPart this path0 C0 section0 exact0 w).2 other = hosts w other.
Proof. intros Hne. cbn. by apply fn_lookup_insert_ne. Qed.

Lemma addPart_parts w this a :
  parts (hosts (addPart this (arg_path a) (arg_Component a) (arg_section a)
                  (arg_exact a) w).2 this)
  = parts (hosts w this) ++ [partOf a].
Proof. by rewrite addPart_host. Qed.

Lemma addParts_result w this (calls : list (AddPartArgs View)) :
  (addParts this calls w).1 = this.
Proof.
  revert w. induction calls as [|a calls IH]; intros w; [done|].
  cbn. apply IH.
Qed.

Lemma addParts_parts w this (calls : list (AddPartArgs View)) :
  parts (hosts (addParts this calls w).2 this)
  = parts (hosts w this) ++ (partOf <$> calls).
Proof.
  revert w. induction calls as [|a calls IH]; intros w.
  - cbn. by rewrite app_nil_r.
  - change ((addParts this (a :: calls) w).2)
      with ((addParts this calls
               (addPart this (arg_path a) (arg_Component a) (arg_section a)
                  (arg_exact a) w).2).2).
    rewrite IH, addPart_parts. cbn. by rewrite <- app_assoc.
Qed.

Lemma constructor_run w :
  constructor w =
    (S (next w),
     {| hosts := <[S (next w) :=
                    {| initialState := next w; reducers := []; effectors := [];
                       enhancers := []; middleware := []; parts := [];
                       _store := None |}]> (hosts w);
        objects := <[next w := ∅]> (objects w);
        stores := stores w;
        next := S (S (next w)) |}).
Proof. reflexivity. Qed.

Lemma constructor_parts w :
  parts (hosts (constructor w).2 (constructor w).1) = [].
Proof. rewrite constructor_run. simpl. by rewrite fn_lookup_insert. Qed.

(** ** What the routes of a section look like *)

Lemma route_in_children (l : list (Part View)) (r : RouteElement View) :
  r ∈ imap Route l ↔ ∃ i p, l !! i = Some p ∧ r = Route i p.
Proof.
  rewrite list_elem_of_lookup. split.
  - intros [i Hi]. rewrite list_lookup_imap in Hi.
    destruct (l !! i) as [p|] eqn:Hp; [|done].
    exists i, p. split; [done|]. by injection Hi.
  - intros (i & p & Hp & ->). exists i.
    by rewrite list_lookup_imap, Hp.
Qed.

(** ** Section filtering *)

(** C2. The children of the element returned by [getSection] are the routes
    of the registered parts whose [section] equals the requested name, one
    route per such part and none for any other part: a part is selected
    exactly when it is registered with that section, every child is the
    route of a selected part, and every selected part has its child. *)
Theorem getSection_section_filtering w this name (exclusive : option bool) :
  let el := (getSection this name exclusive w).1 in
  let registered := parts (hosts w this) in
  let selected := filter (λ p, section p = name) registered in
  children el = imap Route selected
  ∧ (∀ p, p ∈ selected ↔ p ∈ registered ∧ section p = name)
  ∧ (∀ r, r ∈ children el →
       ∃ i p, p ∈ registered ∧ section p = name ∧ r = Route i p)
  ∧ (∀ p, p ∈ registered → section p = name → ∃ i, Route i p ∈ children el)
  ∧ (∀ p, p ∈ registered → section p ≠ name → p ∉ selected)
  ∧ length (children el) = length selected.
Proof.
  intros el registered selected. subst el. rewrite getSection_run. simpl.
  fold registered. fold selected.
  assert (Hsel : ∀ p, p ∈ selected ↔ p ∈ registered ∧ section p = name).
  { intros p. unfold selected. rewrite list_elem_of_filter. tauto. }
  split_and!.
  - done.
  - exact Hsel.
  - intros r Hr. apply route_in_children in Hr as (i & p & Hp & ->).
    apply list_elem_of_lookup_2 in Hp. apply Hsel in Hp as [Hin Hsec].
    by exists i, p.
  - intros p Hin Hsec.
    assert (Hp : p ∈ selected) by (apply Hsel; done).
    apply list_elem_of_lookup in Hp as [i Hi].
    exists i. apply route_in_children. by exists i, p.
  - intros p _ Hne Hp. apply Hsel in Hp as [_ Hsec]. done.
  - by rewrite length_imap.
Qed.

(** ** Order preservation *)

(** C3. After any sequence of chained [addPart] calls, [getSection(name,
    false)] is a ['div'] whose children are the routes of the parts of that
    section in call order: the parts already registered followed by the
    parts of the calls, filtered by section, keyed by their position; on a
    new host these are exactly the calls' parts of that section in call
    order. *)
Theorem getSection_order_preservation w this (calls : list (AddPartArgs View)) name :
  (addParts this calls w).1 = this
  ∧ (getSection this name (Some false) (addParts this calls w).2).1
    = {| type := div;
         children :=
           imap Route (filter (λ p, section p = name)
                         (parts (hosts w this) ++ (partOf <$> calls))) |}
  ∧ ((host ← constructor; host ← addParts host calls;
      getSection host name (Some false)) w).1
    = {| type := div;
         children :=
           imap Route (filter (λ p, section p = name) (partOf <$> calls)) |}.
Proof.
  split_and!.
  - apply addParts_result.
  - by rewrite getSection_run, addParts_parts.
  - rewrite !bind_run, addParts_result, getSection_run, addParts_parts.
    by rewrite constructor_parts.
Qed.

(** ** Empty sections *)

(** C5. When no registered part has the requested section (in particular
    when the name was never registered), [getSection] returns the container
    chosen by [exclusive] with an empty list of children, leaves the world as
    it was, and the container renders nothing at any location. *)
Theorem getSection_empty_section w this name (exclusive : option bool) :
  (∀ p, p ∈ parts (hosts w this) → section p ≠ name) →
  getSection this name exclusive w
  = ({| type := if default true exclusive then Switch else div;
        children := [] |}, w)
  ∧ ∀ pathname, renderSection pathname (getSection this name exclusive w).1 = [].
Proof.
  intros Hnone.
  assert (Hf : filter (λ p, section p = name) (parts (hosts w this)) = []).
  { induction (parts (hosts w this)) as [|q l IH]; [done|].
    rewrite filter_cons. destruct (decide (section q = name)) as [Heq|_].
    - exfalso. apply (Hnone q); [left|done].
    - apply IH. intros p Hp. apply Hnone. by right. }
  rewrite getSection_run, Hf. split; [done|].
  intros pathname. simpl. by destruct (default true exclusive).
Qed.

(** ** Registration *)

(** C6. For all arguments, [addPart] returns the reference it was called on
    and pushes exactly one entry, built from its arguments, at the end of the
    receiver's [parts]: the length grows by one and every earlier entry keeps
    its position; nothing else in the world changes.  Calling [addPart] again
    on the returned reference leaves both entries registered, and each is
    found by [getSection] under its own section. *)
Theorem addPart_appends_and_chains w this (path0 : string) (C0 : View)
    (section0 : option string) (exact0 : option bool) :
  let p0 := {| section := default "main" section0; path := path0;
               Component := C0; exact := default true exact0 |} in
  let w' := (addPart this path0 C0 section0 exact0 w).2 in
  (addPart this path0 C0 section0 exact0 w).1 = this
  ∧ parts (hosts w' this) = parts (hosts w this) ++ [p0]
  ∧ length (parts (hosts w' this)) = S (length (parts (hosts w this)))
  ∧ (∀ i q, parts (hosts w this) !! i = Some q → parts (hosts w' this) !! i = Some q)
  ∧ hosts w' this = set_parts (parts (hosts w this) ++ [p0]) (hosts w this)
  ∧ (∀ other, other ≠ this → hosts w' other = hosts w other)
  ∧ objects w' = objects w ∧ stores w' = stores w ∧ next w' = next w
  ∧ ∀ (path1 : string) (C1 : View) section1 exact1,
      let p1 := {| section := default "main" section1; path := path1;
                   Component := C1; exact := default true exact1 |} in
      let chained := (host ← addPart this path0 C0 section0 exact0;
                      addPart host path1 C1 section1 exact1) w in
      chained.1 = this
      ∧ parts (hosts chained.2 this) = parts (hosts w this) ++ [p0; p1]
      ∧ ∀ exclusive,
          (∃ i, Route i p0 ∈ children (getSection this (section p0) exclusive chained.2).1)
          ∧ (∃ i, Route i p1 ∈ children (getSection this (section p1) exclusive chained.2).1).
Proof.
  intros p0 w'.
  assert (Hparts : parts (hosts w' this) = parts (hosts w this) ++ [p0]).
  { unfold w'. by rewrite addPart_host. }
  split_and!; try done.
  - rewrite Hparts, length_app. simpl. lia.
  - intros i q Hq. rewrite Hparts. by apply lookup_app_l_Some.
  - apply addPart_host.
  - intros other Hne. by apply addPart_other_host.
  - intros path1 C1 section1 exact1 p1 chained.
    assert (Hchained : parts (hosts chained.2 this) = parts (hosts w this) ++ [p0; p1]).
    { unfold chained. rewrite bind_run, addPart_result, !addPart_host. simpl.
      by rewrite <- app_assoc. }
    split_and!; [done|done|].
    intros exclusive.
    assert (Hfound : ∀ q, q ∈ [p0; p1] →
      ∃ i, Route i q ∈ children (getSection this (section q) exclusive chained.2).1).
    { intros q Hq. rewrite getSection_run. simpl.
      assert (Hsel : q ∈ filter (λ p, section p = section q) (parts (hosts chained.2 this))).
      { apply list_elem_of_filter. split; [done|].
        rewrite Hchained. apply elem_of_app. by right. }
      apply list_elem_of_lookup in Hsel as [i Hi].
      exists i. apply route_in_children. by exists i, q. }
    split; apply Hfound; set_solver.
Qed.

(** ** Resolution is a read *)

(** C7. [getSection] returns the world it was given, so no field of any host
    changes; two consecutive calls with the same arguments return the same
    element; and when a part is added between two calls with the same
    arguments, the second result has the children of the first followed by
    the route of the new part if the part belongs to that section (and the
    same children otherwise). *)
Theorem getSection_side_effect_free w this name (exclusive : option bool) :
  (getSection this name exclusive w).2 = w
  ∧ (el1 ← getSection this name exclusive;
     el2 ← getSection this name exclusive;
     mret (el1, el2)) w
    = (((getSection this name exclusive w).1, (getSection this name exclusive w).1), w)
  ∧ ∀ a,
      let el1 := (getSection this name exclusive w).1 in
      let el2 := (_ ← getSection this name exclusive;
                  _ ← addPart this (arg_path a) (arg_Component a)
                        (arg_section a) (arg_exact a);
                  getSection this name exclusive) w in
      type el2.1 = type el1
      ∧ children el2.1
        = children el1 ++
            (if decide (section (partOf a) = name)
             then [Route (length (children el1)) (partOf a)] else []).
Proof.
  split_and!; [done|done|].
  intros a el1 el2. unfold el1, el2.
  rewrite !bind_run, !getSection_run. cbn [fst snd].
  rewrite addPart_parts. cbn [type children]. split; [done|].
  rewrite list.filter_app, imap_app, length_imap. f_equal.
  rewrite filter_cons, filter_nil.
  destruct (decide (section (partOf a) = name)); simpl; [|done].
  by rewrite Nat.add_0_r.
Qed.

(** ** Default arguments *)

(** C9. [addPart] without [section] registers under ['main'], without
    [exact] registers with [exact = true], and [getSection] without
    [exclusive] is [getSection(name, true)], an exclusive ([Switch])
    container. *)
Theorem default_arguments w this (path0 : string) (C0 : View)
    (section0 : option string) (exact0 : option bool) name :
  let n := length (parts (hosts w this)) in
  addPart this path0 C0 None exact0 w = addPart this path0 C0 (Some "main") exact0 w
  ∧ addPart this path0 C0 section0 None w = addPart this path0 C0 section0 (Some true) w
  ∧ parts (hosts (addPart this path0 C0 None None w).2 this) !! n
    = Some {| section := "main"; path := path0; Component := C0; exact := true |}
  ∧ section <$> parts (hosts (addPart this path0 C0 None exact0 w).2 this) !! n
    = Some "main"
  ∧ exact <$> parts (hosts (addPart this path0 C0 section0 None w).2 this) !! n
    = Some true
  ∧ getSection this name None w = getSection this name (Some true) w
  ∧ type (getSection this name None w).1 = Switch.
Proof.
  intros n. split_and!; try reflexivity.
  all: rewrite addPart_host; simpl; unfold n.
  all: by rewrite list_lookup_middle.
Qed.

(** ** Rendering the routes of a section *)

Lemma found_shift {A B : Type} (g : A → B) (d : B) (o : option (nat * A)) :
  match prod_map S id <$> o with Some (_, x) => g x | None => d end
  = match o with Some (_, x) => g x | None => d end.
Proof. by destruct o as [[i x]|]. Qed.

Lemma renderSwitch_routes (f : nat → Part View → RouteElement View)
    pathname name (l : list (Part View)) :
  (∀ i p, r_path (f i p) = path p ∧ r_exact (f i p) = exact p
          ∧ r_component (f i p) = Component p) →
  renderSwitch pathname (imap f (filter (λ p, section p = name) l))
  = match list_find (partMatches pathname name) l with
    | Some (_, p) => [Component p]
    | None => []
    end.
Proof.
  revert f. induction l as [|q l IH]; intros f Hf; [done|].
  rewrite filter_cons. cbn [list_find].
  destruct (decide (section q = name)) as [Hsec|Hsec].
  - cbn [imap]. unfold renderSwitch. cbn [list_find].
    destruct (Hf 0 q) as (Hp & He & Hc).
    destruct (matchPath pathname (path q) (exact q)) eqn:Hm.
    + rewrite decide_True by (unfold routeMatches; by rewrite Hp, He, Hm).
      rewrite decide_True by (by split).
      by rewrite Hc.
    + rewrite decide_False by (unfold routeMatches; rewrite Hp, He, Hm; cbn; tauto).
      rewrite decide_False by (cbn; tauto).
      rewrite !found_shift. apply (IH (f ∘ S)). intros i p. apply Hf.
  - rewrite decide_False by tauto.
    rewrite found_shift. by apply IH.
Qed.

Lemma renderDiv_routes (f : nat → Part View → RouteElement View)
    pathname name (l : list (Part View)) :
  (∀ i p, r_path (f i p) = path p ∧ r_exact (f i p) = exact p
          ∧ r_component (f i p) = Component p) →
  renderDiv pathname (imap f (filter (λ p, section p = name) l))
  = Component <$> filter (partMatches pathname name) l.
Proof.
  revert f. induction l as [|q l IH]; intros f Hf; [done|].
  rewrite !filter_cons.
  destruct (decide (section q = name)) as [Hsec|Hsec].
  - cbn [imap]. unfold renderDiv. cbn [mbind list_bind].
    assert (IH' := IH (f ∘ S) (λ i p, Hf (S i) p)).
    unfold renderDiv in IH'. rewrite IH'. clear IH'.
    destruct (Hf 0 q) as (Hp & He & Hc).
    unfold renderRoute, routeMatches. rewrite Hp, He, Hc.
    destruct (matchPath pathname (path q) (exact q)) eqn:Hm.
    + rewrite decide_True by (by split). done.
    + rewrite decide_False by (cbn; tauto). done.
  - rewrite decide_False by tauto. by apply IH.
Qed.

Lemma Route_fields (i : nat) p :
  r_path (Route i p) = path p ∧ r_exact (Route i p) = exact p
  ∧ r_component (Route i p) = Component p.
Proof. done. Qed.

Lemma mainScenario_run (V1 V2 : View) (exclusive : option bool) w :
  (mainScenario V1 V2 exclusive w).1
  = {| type := if default true exclusive then Switch else div;
       children :=
         [ Route 0 {| section := "main"; path := "/a"; Component := V1; exact := true |};
           Route 1 {| section := "main"; path := "/"; Component := V2; exact := false |} ] |}.
Proof.
  unfold mainScenario.
  rewrite !bind_run, !addPart_result, getSection_run, !addPart_host.
  cbn [parts set_parts fst]. rewrite constructor_parts. reflexivity.
Qed.

(** ** Exclusive and non-exclusive resolution *)

(** C1. With P1 = ('/a', exact) and then P2 = ('/', not exact) registered in
    section 'main' of a new host, and a route guard that accepts '/a' for
    P1, rejects '/b' for P1 and accepts '/b' for P2, [getSection('main',
    true)] renders only P1 at '/a' and only P2 at '/b'.  In general the
    exclusive section renders the first part, in registration order, that
    belongs to the section and whose guard passes at the current location,
    and nothing when there is none. *)
Theorem exclusive_first_match (V1 V2 : View) w :
  matchPath "/a" "/a" true = true →
  matchPath "/b" "/a" true = false →
  matchPath "/b" "/" false = true →
  renderSection "/a" (mainScenario V1 V2 (Some true) w).1 = [V1]
  ∧ renderSection "/b" (mainScenario V1 V2 (Some true) w).1 = [V2]
  ∧ ∀ w' this name pathname,
      let shown := renderSection pathname (getSection this name (Some true) w').1 in
      let registered := parts (hosts w' this) in
      shown = match list_find (partMatches pathname name) registered with
              | Some (_, p) => [Component p]
              | None => []
              end
      ∧ (∀ i p, registered !! i = Some p →
           section p = name → matchPath pathname (path p) (exact p) = true →
           (∀ j q, registered !! j = Some q → j < i → section q = name →
                   matchPath pathname (path q) (exact q) = false) →
           shown = [Component p])
      ∧ ((∀ p, p ∈ registered → section p = name →
               matchPath pathname (path p) (exact p) = false) →
         shown = []).
Proof.
  intros Ha Hb Hroot.
  split_and!.
  - rewrite mainScenario_run. unfold renderSection, renderSwitch, routeMatches.
    cbn. by rewrite Ha.
  - rewrite mainScenario_run. unfold renderSection, renderSwitch, routeMatches.
    cbn. by rewrite Hb, Hroot.
  - intros w' this name pathname shown registered.
    assert (Hshown : shown = match list_find (partMatches pathname name) registered with
                             | Some (_, p) => [Component p]
                             | None => []
                             end).
    { unfold shown. rewrite getSection_run. cbn [fst type children default].
      unfold renderSection. cbn [type children].
      apply renderSwitch_routes, Route_fields. }
    split_and!; [done| |].
    + intros i p Hi Hsec Hm Hfirst.
      assert (Hfind : list_find (partMatches pathname name) registered = Some (i, p)).
      { apply list_find_Some. split; [done|]. split.
        - split; [done|]. by rewrite Hm.
        - intros j q Hj Hlt [Hsq Hmq]. by rewrite (Hfirst j q) in Hmq. }
      by rewrite Hshown, Hfind.
    + intros Hnone.
      assert (Hfind : list_find (partMatches pathname name) registered = None).
      { apply list_find_None. apply list.Forall_forall. intros q Hq [Hsq Hmq].
        by rewrite (Hnone q Hq Hsq) in Hmq. }
      by rewrite Hshown, Hfind.
Qed.

(** C4. With the same two parts and a guard that accepts '/a' for both,
    [getSection('main', false)] renders P1 and P2 at '/a'.  In general the
    non-exclusive section renders, in registration order, every part that
    belongs to the section and whose own guard passes at the current
    location; so a part is shown exactly when it is such a part. *)
Theorem non_exclusive_all_match (V1 V2 : View) w :
  matchPath "/a" "/a" true = true →
  matchPath "/a" "/" false = true →
  renderSection "/a" (mainScenario V1 V2 (Some false) w).1 = [V1; V2]
  ∧ ∀ w' this name pathname,
      let shown := renderSection pathname (getSection this name (Some false) w').1 in
      let registered := parts (hosts w' this) in
      shown = Component <$> filter (partMatches pathname name) registered
      ∧ length shown = length (filter (partMatches pathname name) registered)
      ∧ (∀ p, p ∈ registered → section p = name →
              matchPath pathname (path p) (exact p) = true → Component p ∈ shown).
Proof.
  intros Ha Hroot.
  split.
  - rewrite mainScenario_run. unfold renderSection, renderDiv, renderRoute, routeMatches.
    cbn. by rewrite Ha, Hroot.
  - intros w' this name pathname shown registered.
    assert (Hshown : shown = Component <$> filter (partMatches pathname name) registered).
    { unfold shown. rewrite getSection_run. cbn [fst type children default].
      unfold renderSection. cbn [type children].
      apply renderDiv_routes, Route_fields. }
    split_and!; [done| |].
    + by rewrite Hshown, length_fmap.
    + intros p Hin Hsec Hm. rewrite Hshown. apply list_elem_of_fmap_2.
      apply list_elem_of_filter. split; [|done]. split; [done|by rewrite Hm].
Qed.

(** ** Operation sequences *)

Lemma store_run w this :
  store this w
  = match _store (hosts w this) with
    | Some s => (s, w)
    | None =>
        (length (stores w),
         {| hosts := <[this := set_store (Some (length (stores w))) (hosts w this)]>
                       (hosts w);
            objects := objects w;
            stores := stores w ++ [storeCallOf (hosts w this)];
            next := next w |})
    end.
Proof.
  unfold store. rewrite bind_run. cbn [readHost fst snd].
  by destruct (_store (hosts w this)).
Qed.

Lemma perform_other_host w this other (op : Op View) :
  other ≠ this → hosts (perform this op w).2 other = hosts w other.
Proof.
  intros Hne. destruct op; try (run_method; by rewrite ?fn_lookup_insert_ne).
  unfold perform. rewrite bind_run, store_run.
  destruct (_store (hosts w this)); [done|].
  unfold mret, M_ret. cbn [fst snd hosts]. by rewrite fn_lookup_insert_ne.
Qed.

Lemma perform_parts w this (op : Op View) :
  parts (hosts (perform this op w).2 this)
  = parts (hosts w this) ++ match op with OpAddPart a => [partOf a] | _ => [] end.
Proof.
  destruct op; try (run_method; by rewrite ?fn_lookup_insert, ?app_nil_r).
  unfold perform. rewrite bind_run, store_run.
  destruct (_store (hosts w this)); unfold mret, M_ret; cbn [fst snd hosts];
    by rewrite ?fn_lookup_insert, app_nil_r.
Qed.

Lemma performAll_cons w this (op : Op View) ops :
  (performAll this (op :: ops) w).2 = (performAll this ops (perform this op w).2).2.
Proof. cbn [performAll]. by rewrite bind_run. Qed.

Lemma performAll_parts w this (ops : list (Op View)) :
  parts (hosts (performAll this ops w).2 this)
  = parts (hosts w this) ++ addedParts ops.
Proof.
  revert w. induction ops as [|op ops IH]; intros w.
  - cbn. by rewrite app_nil_r.
  - rewrite performAll_cons, IH, perform_parts, <- app_assoc.
    by destruct op.
Qed.

Lemma perform_store_kept w this (op : Op View) (s : ref) :
  _store (hosts w this) = Some s →
  _store (hosts (perform this op w).2 this) = Some s
  ∧ stores (perform this op w).2 = stores w.
Proof.
  intros Hs. destruct op; try (run_method; by rewrite ?fn_lookup_insert).
  unfold perform. rewrite bind_run, store_run, Hs. done.
Qed.

Lemma performAll_store_kept w this (ops : list (Op View)) (s : ref) :
  _store (hosts w this) = Some s →
  _store (hosts (performAll this ops w).2 this) = Some s
  ∧ stores (performAll this ops w).2 = stores w.
Proof.
  revert w. induction ops as [|op ops IH]; intros w Hs; [done|].
  rewrite performAll_cons.
  destruct (perform_store_kept w this op s Hs) as [Hs' Hst].
  destruct (IH _ Hs') as [Hs'' Hst'']. by rewrite Hst'', Hst.
Qed.

(** Until [store] is read the private field stays unset: it is unset on a
    new host and no other operation assigns it. *)
Lemma store_unset_until_read w this (ops : list (Op View)) :
  _store (hosts (constructor w).2 (constructor w).1) = None
  ∧ (_store (hosts w this) = None → OpStore ∉ ops →
     _store (hosts (performAll this ops w).2 this) = None).
Proof.
  split.
  - rewrite constructor_run. cbn [fst snd hosts]. by rewrite fn_lookup_insert.
  - revert w. induction ops as [|op ops IH]; intros w Hnone Hops; [done|].
    rewrite performAll_cons. apply IH; [|set_solver].
    destruct op; try (run_method; by rewrite ?fn_lookup_insert).
    set_solver.
Qed.

(** ** The parts sequence only grows *)

(** C8. A new host has no parts.  Each operation on a host (setInitialState,
    addReducer, addEffector, addEnhancer, addMiddleware, addPart,
    getSection, store access) leaves the existing entries of its [parts] in
    place and in order: only [addPart] changes the sequence, by putting its
    one entry at the end.  Hence after any sequence of operations the
    sequence is the earlier one followed by the added parts in call order,
    every earlier entry is still at its index, and operations on another
    host do not touch it. *)
Theorem parts_append_only w this :
  parts (hosts (constructor w).2 (constructor w).1) = []
  ∧ (∀ op : Op View,
       parts (hosts (perform this op w).2 this)
       = parts (hosts w this) ++ match op with OpAddPart a => [partOf a] | _ => [] end)
  ∧ (∀ ops : list (Op View),
       parts (hosts (performAll this ops w).2 this)
       = parts (hosts w this) ++ addedParts ops)
  ∧ (∀ (ops : list (Op View)) i p,
       parts (hosts w this) !! i = Some p →
       parts (hosts (performAll this ops w).2 this) !! i = Some p)
  ∧ (∀ (op : Op View) other,
       other ≠ this →
       parts (hosts (perform other op w).2 this) = parts (hosts w this)).
Proof.
  split_and!.
  - apply constructor_parts.
  - intros op. apply perform_parts.
  - intros ops. apply performAll_parts.
  - intros ops i p Hi. rewrite performAll_parts. by apply lookup_app_l_Some.
  - intros op other Hne. rewrite perform_other_host; [done|]. by intros ->.
Qed.

End Properties.
(** * Further properties of the class *)

Section Registrations.

Context `{SC : StateContainer} {View : Type}.

Implicit Types (w : World View) (this : ref) (name : string).
Implicit Types (op : Op View) (ops : list (Op View)).

(** ** One operation, heap by heap *)

Lemma perform_host w this op :
  hosts (perform this op w).2 this
  = let h := hosts w this in
    match op with
    | OpAddReducer reducer => set_reducers (reducers h ++ [reducer]) h
    | OpAddEffector effector => set_effectors (effectors h ++ [effector]) h
    | OpAddEnhancer enhancer => set_enhancers (enhancers h ++ [enhancer]) h
    | OpAddMiddleware mw => set_middleware (middleware h ++ [mw]) h
    | OpAddPart a => set_parts (parts h ++ [partOf a]) h
    | OpStore =>
        match _store h with
        | None => set_store (Some (length (stores w))) h
        | Some _ => h
        end
    | _ => h
    end.
Proof.
  destruct op; cbn zeta;
    try (unfold perform, setInitialState, addReducer, addEffector, addEnhancer,
           addMiddleware, addPart, getSection;
         rewrite ?bind_run;
         unfold modifyHost, modifyObject, readHost, mret, M_ret;
         cbn [fst snd hosts]; by rewrite ?fn_lookup_insert).
  unfold perform. rewrite bind_run, store_run.
  destruct (_store (hosts w this)); unfold mret, M_ret; cbn [fst snd hosts];
    by rewrite ?fn_lookup_insert.
Qed.

Lemma perform_objects w this op (o : ref) :
  objects (perform this op w).2 o
  = match op with
    | OpSetInitialState key value =>
        if decide (initialState (hosts w this) = o)
        then <[key := value]> (objects w o)
        else objects w o
    | _ => objects w o
    end.
Proof.
  destruct op;
    try (unfold perform, addReducer, addEffector, addEnhancer, addMiddleware,
           addPart, getSection;
         rewrite ?bind_run; reflexivity).
  - unfold perform, setInitialState. rewrite !bind_run.
    unfold modifyObject, readHost, mret, M_ret. cbn [fst snd objects].
    destruct (decide (initialState (hosts w this) = o)) as [<-|Hne].
    + by rewrite fn_lookup_insert.
    + by rewrite fn_lookup_insert_ne.
  - unfold perform. rewrite bind_run, store_run.
    by destruct (_store (hosts w this)).
Qed.

Lemma perform_stores w this op :
  stores (perform this op w).2
  = match op, _store (hosts w this) with
    | OpStore, None => stores w ++ [storeCallOf (hosts w this)]
    | _, _ => stores w
    end.
Proof.
  destruct op;
    try (unfold perform, setInitialState, addReducer, addEffector, addEnhancer,
           addMiddleware, addPart, getSection;
         rewrite ?bind_run; cbn; by destruct (_store (hosts w this))).
  unfold perform. rewrite bind_run, store_run.
  by destruct (_store (hosts w this)).
Qed.

Lemma perform_initialState w this op :
  initialState (hosts (perform this op w).2 this) = initialState (hosts w this).
Proof.
  rewrite perform_host. cbn zeta.
  destruct op; try done. by destruct (_store (hosts w this)).
Qed.

Lemma performAll_other_host w this other ops :
  other ≠ this → hosts (performAll this ops w).2 other = hosts w other.
Proof.
  intros Hne. revert w. induction ops as [|op ops IH]; intros w; [done|].
  by rewrite performAll_cons, IH, perform_other_host.
Qed.

Lemma performAll_initialState w this ops :
  initialState (hosts (performAll this ops w).2 this) = initialState (hosts w this).
Proof.
  revert w. induction ops as [|op ops IH]; intros w; [done|].
  by rewrite performAll_cons, IH, perform_initialState.
Qed.

Lemma performAll_object w this ops :
  objects (performAll this ops w).2 (initialState (hosts w this))
  = assignAll (objects w (initialState (hosts w this))) ops.
Proof.
  revert w. induction ops as [|op ops IH]; intros w; [done|].
  rewrite performAll_cons.
  rewrite <- (perform_initialState w this op), IH, perform_initialState.
  rewrite perform_objects. destruct op; try done.
  cbn [assignAll]. by rewrite decide_True.
Qed.

Lemma performAll_other_object w this ops (o : ref) :
  o ≠ initialState (hosts w this) →
  objects (performAll this ops w).2 o = objects w o.
Proof.
  revert w. induction ops as [|op ops IH]; intros w Hne; [done|].
  rewrite performAll_cons, IH by (by rewrite perform_initialState).
  rewrite perform_objects. destruct op; try done.
  by rewrite decide_False.
Qed.

Lemma performAll_stores_unread w this ops :
  Forall (λ op, readsStore op = false) ops →
  stores (performAll this ops w).2 = stores w
  ∧ _store (hosts (performAll this ops w).2 this) = _store (hosts w this).
Proof.
  revert w. induction ops as [|op ops IH]; intros w Hops; [done|].
  inversion Hops as [|op' ops' Hop Hops']; subst.
  rewrite performAll_cons. destruct (IH (perform this op w).2 Hops') as [-> ->].
  rewrite perform_stores, perform_host. cbn zeta.
  by destruct op.
Qed.

Lemma assignAll_app (o : gmap string Value) ops1 ops2 :
  assignAll o (ops1 ++ ops2) = assignAll (assignAll o ops1) ops2.
Proof.
  revert o. induction ops1 as [|op ops1 IH]; intros o; [done|].
  destruct op; cbn; apply IH.
Qed.

Lemma assignAll_untouched (o : gmap string Value) ops (key : string) :
  (∀ value, OpSetInitialState key value ∉ ops) →
  assignAll o ops !! key = o !! key.
Proof.
  revert o. induction ops as [|op ops IH]; intros o Hnot; [done|].
  assert (Hrest : ∀ value, OpSetInitialState key value ∉ ops).
  { intros value Hin. apply (Hnot value). by right. }
  destruct op as [key' value'| | | | | | |]; cbn; rewrite ?IH by done; try done.
  apply lookup_insert_ne. intros ->. apply (Hnot value'). left.
Qed.

Lemma registrations_keep_call_order_aux w this ops :
  reducers (hosts (performAll this ops w).2 this)
    = reducers (hosts w this) ++ addedReducers ops
  ∧ effectors (hosts (performAll this ops w).2 this)
    = effectors (hosts w this) ++ addedEffectors ops
  ∧ enhancers (hosts (performAll this ops w).2 this)
    = enhancers (hosts w this) ++ addedEnhancers ops
  ∧ middleware (hosts (performAll this ops w).2 this)
    = middleware (hosts w this) ++ addedMiddleware ops.
Proof.
  revert w. induction ops as [|op ops IH]; intros w.
  - cbn. by rewrite !app_nil_r.
  - rewrite performAll_cons.
    destruct (IH (perform this op w).2) as (-> & -> & -> & ->).
    rewrite perform_host. cbn zeta.
    destruct op; cbn; rewrite <- ?app_assoc; try done.
    by destruct (_store (hosts w this)).
Qed.

(** ** The initial state *)

(** X1. For a key other than ['__proto__'], [setInitialState] returns its
    receiver and assigns the value under the key in the receiver's
    initial-state object: the key then reads back the value, every other key
    reads as before, every other object, all hosts and all stores are as
    before, and a second assignment to the same key replaces the first. *)
Theorem setInitialState_assigns w this (key : string) (value : Value) :
  key ≠ "__proto__" →
  let o := initialState (hosts w this) in
  let w' := (setInitialState this key value w).2 in
  (setInitialState this key value w).1 = this
  ∧ objects w' o !! key = Some value
  ∧ (∀ key', key' ≠ key → objects w' o !! key' = objects w o !! key')
  ∧ (∀ o', o' ≠ o → objects w' o' = objects w o')
  ∧ hosts w' = hosts w ∧ stores w' = stores w
  ∧ ∀ value',
      objects (setInitialState this key value' w').2 o = <[key := value']> (objects w o).
Proof.
  intros _ o w'.
  assert (Hobj : ∀ w0 v, hosts w0 = hosts w →
            objects (setInitialState this key v w0).2 o = <[key := v]> (objects w0 o)).
  { intros w0 v Hhosts. unfold setInitialState. rewrite !bind_run.
    unfold modifyObject, readHost, mret, M_ret. cbn [fst snd objects].
    rewrite Hhosts. fold o. by rewrite fn_lookup_insert. }
  split_and!; try done.
  - unfold w'. by rewrite Hobj, lookup_insert_eq.
  - intros key' Hne. unfold w'. by rewrite Hobj, lookup_insert_ne.
  - intros o' Hne. unfold w', setInitialState. rewrite !bind_run.
    unfold modifyObject, readHost, mret, M_ret. cbn [fst snd objects].
    fold o. by rewrite fn_lookup_insert_ne.
  - intros value'. rewrite (Hobj w') by done. unfold w'.
    by rewrite Hobj, insert_insert_eq.
Qed.

(** X2. Over any sequence of operations on a host that never assigns the key
    ['__proto__'], its initial-state object ends as the object it was with
    the [setInitialState] assignments applied in call order.  So a key reads
    the value of the last assignment made to it, and a key that no operation
    assigns reads as before. *)
Theorem initialState_last_write_wins w this ops :
  (∀ value : Value, OpSetInitialState "__proto__" value ∉ ops) →
  let o := initialState (hosts w this) in
  let w' := (performAll this ops w).2 in
  initialState (hosts w' this) = o
  ∧ objects w' o = assignAll (objects w o) ops
  ∧ (∀ before after (key : string) (value : Value),
       ops = before ++ OpSetInitialState key value :: after →
       (∀ value', OpSetInitialState key value' ∉ after) →
       objects w' o !! key = Some value)
  ∧ (∀ key : string,
       (∀ value, OpSetInitialState key value ∉ ops) →
       objects w' o !! key = objects w o !! key).
Proof.
  intros _ o w'.
  assert (Hobj : objects w' o = assignAll (objects w o) ops)
    by apply performAll_object.
  split_and!; [apply performAll_initialState|done| |].
  - intros before after key value -> Hlast.
    rewrite Hobj, assignAll_app. cbn [assignAll].
    by rewrite assignAll_untouched, lookup_insert_eq.
  - intros key Hnone. by rewrite Hobj, assignAll_untouched.
Qed.

(** ** The registration arrays *)

(** X3. Over any sequence of operations on a host, each of its arrays of
    reducers, effectors, enhancers and middleware ends as the array it was
    followed by the values registered through the corresponding [add...]
    method, in call order; registrations of one kind never enter or reorder
    the array of another kind.  The host keeps its initial-state object, and
    other hosts are not touched. *)
Theorem registrations_keep_call_order w this ops :
  let h := hosts w this in
  let h' := hosts (performAll this ops w).2 this in
  reducers h' = reducers h ++ addedReducers ops
  ∧ effectors h' = effectors h ++ addedEffectors ops
  ∧ enhancers h' = enhancers h ++ addedEnhancers ops
  ∧ middleware h' = middleware h ++ addedMiddleware ops
  ∧ initialState h' = initialState h
  ∧ ∀ other, other ≠ this → hosts (performAll this ops w).2 other = hosts w other.
Proof.
  intros h h'.
  destruct (registrations_keep_call_order_aux w this ops) as (Hr & He & Hn & Hm).
  split_and!; try done.
  - apply performAll_initialState.
  - intros other Hne. by apply performAll_other_host.
Qed.

(** ** The store built on first read *)

(** X4. On a new host, after any operations that do not read the store, the
    first read of [store] makes exactly one [Redux.createStore] call.  Its
    reducer combines the registered reducers in call order; its enhancer
    composes the side-effects enhancer of the registered effectors, then the
    registered enhancers in call order, then the middleware enhancer when at
    least one middleware was registered, then the dev-tools enhancer when
    the extension is present; its preloaded state is the host's
    initial-state object, which, when the key ['__proto__'] was never
    assigned, holds the assignments made so far.  All of this depends on the
    order of the calls of each kind only. *)
Theorem first_store_from_registrations w ops :
  Forall (λ op, readsStore op = false) ops →
  let this := (constructor w).1 in
  let w1 := (performAll this ops (constructor w).2).2 in
  let o := initialState (hosts w1 this) in
  let call :=
    {| call_reducer := combineReducers (addedReducers ops);
       call_preloadedState := o;
       call_enhancer :=
         compose (installSideEffects (addedEffectors ops) :: addedEnhancers ops
                  ++ (if bool_decide (addedMiddleware ops = [])
                      then [] else [applyMiddleware (addedMiddleware ops)])
                  ++ (match reduxTools with
                      | Some tools => [tools ()]
                      | None => []
                      end)) |} in
  stores (store this w1).2 = stores w ++ [call]
  ∧ (store this w1).1 = length (stores w)
  ∧ ((∀ value : Value, OpSetInitialState "__proto__" value ∉ ops) →
     objects (store this w1).2 o = assignAll ∅ ops).
Proof.
  intros Hops this w1 o call.
  assert (Hfresh : hosts (constructor w).2 this
            = {| initialState := next w; reducers := []; effectors := [];
                 enhancers := []; middleware := []; parts := []; _store := None |}).
  { unfold this. rewrite constructor_run. cbn [fst snd hosts].
    by rewrite fn_lookup_insert. }
  destruct (performAll_stores_unread (constructor w).2 this ops Hops) as [Hst Hnone].
  fold w1 in Hst, Hnone. rewrite Hfresh in Hnone. cbn in Hnone.
  assert (Hstores0 : stores (constructor w).2 = stores w)
    by (by rewrite constructor_run).
  destruct (registrations_keep_call_order_aux (constructor w).2 this ops)
    as (Hr & He & Hn & Hm).
  fold w1 in Hr, He, Hn, Hm. rewrite Hfresh in Hr, He, Hn, Hm. cbn in Hr, He, Hn, Hm.
  assert (Ho : o = next w).
  { unfold o, w1. by rewrite performAll_initialState, Hfresh. }
  assert (Hcall : storeCallOf (hosts w1 this) = call).
  { unfold storeCallOf, call. fold o. rewrite Hr, He, Hn, Hm. f_equal. f_equal.
    destruct (addedMiddleware ops) as [|m ms], reduxTools as [tools|];
      repeat case_bool_decide; try done; cbn [length] in *; try lia;
      by rewrite <- ?app_assoc, ?app_nil_r. }
  rewrite store_run, Hnone. cbn [fst snd stores objects].
  rewrite Hst, Hstores0, Hcall. split_and!; [done|done|].
  intros _. rewrite Ho. unfold w1.
  replace (next w) with (initialState (hosts (constructor w).2 this)) at 1
    by (by rewrite Hfresh).
  rewrite performAll_object, Hfresh. cbn [initialState].
  rewrite constructor_run. cbn [snd objects]. by rewrite fn_lookup_insert.
Qed.

(** ** Stores and hosts are separate *)

Lemma createStore_run w this :
  createStore this w
  = (length (stores w),
     {| hosts := hosts w; objects := objects w;
        stores := stores w ++ [storeCallOf (hosts w this)];
        next := next w |}).
Proof. reflexivity. Qed.

(** X5. The private [createStore] caches nothing: it leaves every host (and so
    the receiver's [_store]) and every object as they are and always makes a
    store that was not in the table before, so two calls give two different
    stores made from equal [Redux.createStore] calls. *)
Theorem createStore_makes_new_store w this :
  let s1 := (createStore this w).1 in
  let w1 := (createStore this w).2 in
  let s2 := (createStore this w1).1 in
  let w2 := (createStore this w1).2 in
  hosts w1 = hosts w ∧ objects w1 = objects w
  ∧ stores w !! s1 = None
  ∧ stores w1 !! s1 = Some (storeCallOf (hosts w this))
  ∧ s1 ≠ s2
  ∧ stores w2 !! s2 = stores w2 !! s1
  ∧ length (stores w2) = S (S (length (stores w))).
Proof.
  cbn zeta. rewrite !createStore_run. cbn [fst snd hosts objects stores].
  split_and!; try done.
  - by apply lookup_ge_None_2.
  - by rewrite list_lookup_middle.
  - rewrite length_app. cbn. lia.
  - rewrite (list_lookup_middle _ [] _ (length (stores w ++ [storeCallOf (hosts w this)])))
      by done.
    rewrite lookup_app_l by (rewrite length_app; cbn; lia).
    by rewrite list_lookup_middle.
  - rewrite !length_app. cbn. lia.
Qed.

(** X6. Each host has its own store: when two different hosts have not created
    theirs yet, reading [store] on one and then on the other creates two
    different stores, each from the registrations of its own host, and from
    then on each host keeps returning its own. *)
Theorem stores_are_per_host w this other :
  this ≠ other →
  _store (hosts w this) = None →
  _store (hosts w other) = None →
  let r1 := store this w in
  let r2 := store other r1.2 in
  r1.1 ≠ r2.1
  ∧ stores r2.2
    = stores w ++ [storeCallOf (hosts w this); storeCallOf (hosts w other)]
  ∧ store this r2.2 = (r1.1, r2.2)
  ∧ store other r2.2 = (r2.1, r2.2).
Proof.
  intros Hne Hthis Hother r1 r2.
  assert (Hr1 : r1 = (length (stores w),
            {| hosts := <[this := set_store (Some (length (stores w))) (hosts w this)]>
                          (hosts w);
               objects := objects w;
               stores := stores w ++ [storeCallOf (hosts w this)];
               next := next w |})).
  { unfold r1. by rewrite store_run, Hthis. }
  assert (Hother1 : hosts r1.2 other = hosts w other).
  { rewrite Hr1. cbn [snd hosts]. by rewrite fn_lookup_insert_ne. }
  assert (Hr2 : r2 = (length (stores r1.2),
            {| hosts := <[other := set_store (Some (length (stores r1.2))) (hosts w other)]>
                          (hosts r1.2);
               objects := objects r1.2;
               stores := stores r1.2 ++ [storeCallOf (hosts w other)];
               next := next r1.2 |})).
  { unfold r2. by rewrite store_run, Hother1, Hother. }
  split_and!.
  - rewrite Hr2, Hr1. cbn [fst snd stores]. rewrite length_app. cbn. lia.
  - rewrite Hr2, Hr1. cbn [fst snd stores]. by rewrite <- app_assoc.
  - rewrite store_run. rewrite Hr2 at 1. cbn [snd hosts].
    rewrite fn_lookup_insert_ne by done. rewrite Hr1 at 1. cbn [snd hosts].
    rewrite fn_lookup_insert. cbn [_store set_store]. by rewrite Hr1.
  - rewrite store_run. rewrite Hr2 at 1. cbn [snd hosts].
    rewrite fn_lookup_insert. cbn [_store set_store]. by rewrite Hr2.
Qed.

(** X7. Two hosts made by [new ComponentHost()] share nothing: they are
    different instances with different initial-state objects, and whatever
    operations are invoked on the first, the second keeps all its fields,
    its initial-state object stays empty and its sections stay empty. *)
Theorem hosts_are_isolated w ops name (exclusive : option bool) :
  let a := (constructor w).1 in
  let b := (constructor (constructor w).2).1 in
  let w2 := (constructor (constructor w).2).2 in
  let w3 := (performAll a ops w2).2 in
  a ≠ b
  ∧ initialState (hosts w2 a) ≠ initialState (hosts w2 b)
  ∧ hosts w3 b = hosts w2 b
  ∧ objects w3 (initialState (hosts w2 b)) = ∅
  ∧ children (getSection b name exclusive w3).1 = [].
Proof.
  intros a b w2 w3.
  assert (Hab : a ≠ b) by (unfold a, b; rewrite !constructor_run; cbn; lia).
  assert (Ha : initialState (hosts w2 a) = next w).
  { unfold w2, a. rewrite !constructor_run. cbn [fst snd hosts next].
    rewrite fn_lookup_insert_ne by lia. by rewrite fn_lookup_insert. }
  assert (Hb : hosts w2 b
            = {| initialState := S (S (next w)); reducers := []; effectors := [];
                 enhancers := []; middleware := []; parts := []; _store := None |}).
  { unfold w2, b. rewrite !constructor_run. cbn [fst snd hosts next].
    by rewrite fn_lookup_insert. }
  assert (Hkept : hosts w3 b = hosts w2 b).
  { unfold w3. apply performAll_other_host. by intros Heq. }
  split_and!; [done| |done| |].
  - rewrite Ha, Hb. cbn. lia.
  - unfold w3. rewrite performAll_other_object by (rewrite Ha, Hb; cbn; lia).
    rewrite Hb. cbn [initialState]. unfold w2. rewrite !constructor_run.
    cbn [snd objects next]. by rewrite fn_lookup_insert.
  - rewrite getSection_run. cbn [fst children]. by rewrite Hkept, Hb.
Qed.

(** ** Keys and stability of the routes *)

(** X8. The [key] of each route of a section is its position among the routes
    of that section (not its position in the registry), so the keys of a
    section are 0, 1, ... without gaps or repetitions. *)
Theorem getSection_keys w this name (exclusive : option bool) :
  let routes := children (getSection this name exclusive w).1 in
  r_key <$> routes = seq 0 (length routes)
  ∧ NoDup (r_key <$> routes)
  ∧ ∀ i r, routes !! i = Some r → r_key r = i.
Proof.
  intros routes.
  assert (Hkeys : ∀ i r, routes !! i = Some r → r_key r = i).
  { intros i r. unfold routes. rewrite getSection_run. cbn [fst children].
    rewrite list_lookup_imap.
    destruct (filter _ _ !! i) as [p|]; [|done]. by intros [= <-]. }
  assert (Hseq : r_key <$> routes = seq 0 (length routes)).
  { apply list_eq. intros i. rewrite list_lookup_fmap.
    destruct (routes !! i) as [r|] eqn:Hr.
    - symmetry. apply lookup_seq. split.
      + by rewrite (Hkeys i r Hr).
      + by apply lookup_lt_Some in Hr.
    - symmetry. apply lookup_ge_None_2. rewrite length_seq.
      by apply lookup_ge_None_1 in Hr. }
  split_and!; [done| |done].
  rewrite Hseq. apply NoDup_seq.
Qed.

(** X9. Whatever operations are invoked on a host, the routes that [getSection]
    returned before are the first routes it returns afterwards, unchanged
    and with the same keys; the routes that follow them are those of the
    parts added to that section meanwhile, in call order. *)
Theorem getSection_routes_are_stable w this ops name (exclusive : option bool) :
  let before := children (getSection this name exclusive w).1 in
  let after := children (getSection this name exclusive (performAll this ops w).2).1 in
  after = before
          ++ imap (λ i, Route (length before + i))
               (filter (λ p, section p = name) (addedParts ops))
  ∧ before `prefix_of` after
  ∧ ∀ i r, before !! i = Some r → after !! i = Some r.
Proof.
  intros before after.
  assert (Hafter : after = before
            ++ imap (λ i, Route (length before + i))
                 (filter (λ p, section p = name) (addedParts ops))).
  { unfold after, before. rewrite !getSection_run. cbn [fst children].
    rewrite performAll_parts, list.filter_app, imap_app, length_imap.
    f_equal. }
  split_and!; [done| |].
  - rewrite Hafter. by eexists.
  - intros i r Hr. rewrite Hafter. by apply lookup_app_l_Some.
Qed.

(** ** Sections partition the registry *)

Lemma count_section_once (names : list string) (name : string) :
  NoDup names → name ∈ names →
  sum_list ((λ name', if decide (name = name') then 1 else 0) <$> names) = 1.
Proof.
  induction names as [|n names IH]; intros Hnodup Hin.
  - by apply elem_of_nil in Hin.
  - apply list.NoDup_cons in Hnodup as [Hfresh Hnodup]. cbn.
    destruct (decide (name = n)) as [->|Hne].
    + assert (Hzero : ∀ l : list string, n ∉ l →
                sum_list ((λ name', if decide (n = name') then 1 else 0) <$> l) = 0).
      { induction l as [|m l IHl]; intros Hl; [done|]. cbn.
        rewrite decide_False by (intros ->; apply Hl; left).
        apply IHl. intros Hm. apply Hl. by right. }
      by rewrite Hzero.
    + apply elem_of_cons in Hin as [->|Hin]; [done|]. by rewrite IH.
Qed.

(** X10. Every registered part is offered by exactly one section: over any list
    of distinct names that covers the sections in use, the numbers of routes
    returned by [getSection] add up to the number of registered parts. *)
Theorem sections_partition_the_parts w this (names : list string)
    (exclusive : option bool) :
  NoDup names →
  (∀ p, p ∈ parts (hosts w this) → section p ∈ names) →
  sum_list ((λ name, length (children (getSection this name exclusive w).1)) <$> names)
  = length (parts (hosts w this)).
Proof.
  intros Hnodup Hcover.
  assert (Hcount : ∀ l : list (Part View),
            (∀ p, p ∈ l → section p ∈ names) →
            sum_list ((λ name, length (filter (λ p, section p = name) l)) <$> names)
            = length l).
  { induction l as [|q l IH]; intros Hl.
    - assert (Hnil : ∀ ns : list string,
                sum_list ((λ name, length (filter (λ p, section p = name)
                                             (@nil (Part View)))) <$> ns) = 0).
      { induction ns as [|n ns IHns]; [done|].
        cbn [fmap list_fmap sum_list]. by rewrite IHns. }
      apply Hnil.
    - assert (Hsplit : ∀ ns : list string,
                sum_list ((λ name, length (filter (λ p, section p = name) (q :: l))) <$> ns)
                = sum_list ((λ name', if decide (section q = name') then 1 else 0) <$> ns)
                  + sum_list ((λ name, length (filter (λ p, section p = name) l)) <$> ns)).
      { induction ns as [|n ns IHns]; [done|]. cbn [fmap list_fmap sum_list].
        rewrite IHns, filter_cons. destruct (decide (section q = n)); cbn; lia. }
      rewrite Hsplit, IH by (intros p Hp; apply Hl; by right).
      rewrite count_section_once; [done|done|]. apply Hl. left. }
  rewrite <- (Hcount _ Hcover). f_equal. apply list_fmap_ext. intros i name _.
  rewrite getSection_run. cbn [fst children]. by rewrite length_imap.
Qed.

(** ** The store is created once *)



End Registrations.
Section RenderAndLoad.

Context `{SC : StateContainer} {View History InitFn RunResult : Type}.

Implicit Types (w : World View) (this : ref) (ops : list (Op View)).
Implicit Types (history : History) (Page : option View) (rootId : option string).

(** ** [render] *)

Lemma store_then w this :
  _store (hosts (store this w).2 this) = Some (store this w).1
  ∧ store this (store this w).2 = store this w
  ∧ parts (hosts (store this w).2 this) = parts (hosts w this).
Proof.
  rewrite (store_run w). destruct (_store (hosts w this)) as [s|] eqn:Hs.
  - cbn [fst snd]. by rewrite store_run, Hs.
  - cbn [fst snd]. rewrite store_run. cbn [hosts].
    by rewrite fn_lookup_insert.
Qed.

Lemma render_run w this history Page rootId :
  render this history Page rootId w
  = ([ store_dispatch (store this w).1 "app/RENDER";
       ReactDOM_render
         {| provider_store := (store this w).1;
            router_history := history;
            page := from_option CallerPage DummyComponent Page;
            page_children := (getSection this "main" (Some true) w).1 |}
         (default "root" rootId) ],
     (store this w).2).
Proof.
  destruct (store_then w this) as (_ & Hagain & Hparts).
  unfold render. cbn zeta. rewrite !bind_run, Hagain, !getSection_run.
  cbn [fst snd default]. by rewrite Hparts.
Qed.

(** X11. [render] makes two external calls, in this order: it dispatches
    ['app/RENDER'] to the host's store and then renders, into the root
    element, a tree whose provider holds that same store and whose page
    wraps the exclusive 'main' section of the parts registered at that
    moment.  The page is the module's own [DummyComponent] and the root is
    ['root'] when they are not given.  The host is left as after one read of
    [store]: the store is created if it did not exist, no second store is
    made, and no registration changes. *)
Theorem render_calls w this history Page rootId :
  let r := render this history Page rootId w in
  let s := (store this w).1 in
  r.1 = [ store_dispatch s "app/RENDER";
          ReactDOM_render
            {| provider_store := s;
               router_history := history;
               page := match Page with Some P => CallerPage P | None => DummyComponent end;
               page_children :=
                 {| type := Switch;
                    children := imap Route (filter (λ p, section p = "main")
                                              (parts (hosts w this))) |} |}
            (match rootId with Some id => id | None => "root" end) ]
  ∧ r.2 = (store this w).2
  ∧ _store (hosts r.2 this) = Some s
  ∧ stores r.2 = stores w ++ match _store (hosts w this) with
                             | None => [storeCallOf (hosts w this)]
                             | Some _ => []
                             end
  ∧ parts (hosts r.2 this) = parts (hosts w this)
  ∧ reducers (hosts r.2 this) = reducers (hosts w this)
  ∧ objects r.2 = objects w.
Proof.
  intros r s. unfold r. rewrite render_run. cbn [fst snd].
  destruct (store_then w this) as (Hset & _ & Hparts).
  split_and!; try done.
  - rewrite store_run. destruct (_store (hosts w this)); [|done].
    by rewrite app_nil_r.
  - rewrite store_run. destruct (_store (hosts w this)); [done|].
    cbn [snd hosts]. by rewrite fn_lookup_insert.
  - rewrite store_run. by destruct (_store (hosts w this)).
Qed.

(** X12. Rendering again, after any operations on the host, dispatches to and
    provides the store of the first rendering, creates no store and leaves
    the world exactly as it found it; the section it renders is the 'main'
    section of the parts registered by then, so it begins with the routes of
    the first rendering. *)
Theorem render_again w this ops history Page rootId history' Page' rootId' :
  let r1 := render this history Page rootId w in
  let w' := (performAll this ops r1.2).2 in
  let r2 := render this history' Page' rootId' w' in
  let section1 := (getSection this "main" None w).1 in
  let section2 := (getSection this "main" None w').1 in
  r2.2 = w'
  ∧ stores w' = stores r1.2
  ∧ r2.1 = [ store_dispatch (store this w).1 "app/RENDER";
             ReactDOM_render
               {| provider_store := (store this w).1;
                  router_history := history';
                  page := from_option CallerPage DummyComponent Page';
                  page_children := section2 |}
               (default "root" rootId') ]
  ∧ children section1 `prefix_of` children section2.
Proof.
  intros r1 w' r2 section1 section2.
  destruct (store_then w this) as (Hset & _ & Hparts).
  assert (Hr1 : r1.2 = (store this w).2) by (unfold r1; by rewrite render_run).
  destruct (performAll_store_kept r1.2 this ops (store this w).1) as [Hkept Hstores].
  { by rewrite Hr1. }
  fold w' in Hkept, Hstores.
  assert (Hread : store this w' = ((store this w).1, w')).
  { by rewrite store_run, Hkept. }
  split_and!; [| done | |].
  - unfold r2. by rewrite render_run, Hread.
  - unfold r2. by rewrite render_run, Hread.
  - unfold section1, section2, w'. rewrite !getSection_run. cbn [fst children].
    rewrite performAll_parts, Hr1, Hparts, list.filter_app, imap_app.
    by eexists.
Qed.

(** ** [loadComponents] *)

Variable wait_run : list (JsValue InitFn) → ref → M (View := View) RunResult.
Variable require_context : string → bool → string → RequireContext InitFn.
Variable __dirname : string.

Lemma initFns_spec (ctx : RequireContext InitFn) (init : JsValue InitFn) :
  init ∈ filter (λ init, notNull init)
           ((λ key, required ctx key "initReduxComponent") <$> keys ctx)
  ↔ ∃ key f, key ∈ keys ctx
             ∧ required ctx key "initReduxComponent" = js_value f
             ∧ init = js_value f.
Proof.
  rewrite list_elem_of_filter, list_elem_of_fmap. split.
  - intros [Hnn (key & -> & Hkey)].
    destruct (required ctx key "initReduxComponent") as [| |f] eqn:Hreq;
      [done|done|]. by exists key, f.
  - intros (key & f & Hkey & Hreq & ->). split; [done|].
    exists key. by rewrite Hreq.
Qed.

(** X13. [loadComponents] hands to [wait.run], together with the host, the values
    that the modules of the require context export as [initReduxComponent],
    in the order of [keys()], leaving out the modules where that export is
    absent or [null].  The [fnName] argument plays no part: an export under
    any other name is never looked at, and when no module exports
    [initReduxComponent] the list handed over is empty. *)
Theorem loadComponents_hands_over w this (requireContext : RequireContext InitFn)
    (fnName : option string) :
  let exports := (λ key, required requireContext key "initReduxComponent")
                   <$> keys requireContext in
  let initFns := filter (λ init, notNull init) exports in
  loadComponents wait_run this requireContext fnName w = wait_run initFns this w
  ∧ initFns `sublist_of` exports
  ∧ (∀ init, init ∈ initFns ↔
       ∃ key f, key ∈ keys requireContext
                ∧ required requireContext key "initReduxComponent" = js_value f
                ∧ init = js_value f)
  ∧ length initFns ≤ length (keys requireContext)
  ∧ ((∀ key, key ∈ keys requireContext →
             notNull (required requireContext key "initReduxComponent") = false) →
     loadComponents wait_run this requireContext fnName w = wait_run [] this w).
Proof.
  intros exports initFns.
  split_and!.
  - done.
  - apply sublist_filter.
  - intros init. apply initFns_spec.
  - etrans; [apply length_filter|]. unfold exports. by rewrite length_fmap.
  - intros Hnone.
    assert (Hempty : initFns = []).
    { destruct initFns as [|init l] eqn:Hfns; [done|]. exfalso.
      assert (Hin : init ∈ initFns) by (rewrite Hfns; left).
      apply initFns_spec in Hin as (key & f & Hkey & Hreq & _).
      specialize (Hnone key Hkey). by rewrite Hreq in Hnone. }
    unfold loadComponents. cbn zeta. fold exports. fold initFns.
    by rewrite Hempty.
Qed.

(** X14. The earlier revision of [loadComponents] does not use its [dirname]
    argument: whatever directory is named, it takes the require context of
    the module's own [__dirname], searched recursively for the fixed
    pattern, and hands to [wait.run] the non-null [initReduxComponent]
    exports of that context's modules, in the order of [keys()]. *)
Theorem loadComponents_dirname_is_ignored w this (dirname : string) :
  let req := require_context __dirname true "[\/\.]component$" in
  let exports := (λ key, required req key "initReduxComponent") <$> keys req in
  let initFns := filter (λ init, notNull init) exports in
  loadComponents_dirname wait_run require_context __dirname this dirname w
  = wait_run initFns this w
  ∧ (∀ dirname',
       loadComponents_dirname wait_run require_context __dirname this dirname' w
       = loadComponents_dirname wait_run require_context __dirname this dirname w)
  ∧ initFns `sublist_of` exports
  ∧ (∀ init, init ∈ initFns ↔
       ∃ key f, key ∈ keys req
                ∧ required req key "initReduxComponent" = js_value f
                ∧ init = js_value f).
Proof.
  intros req exports initFns.
  split_and!; [done|done|apply sublist_filter|].
  intros init. apply initFns_spec.
Qed.

End RenderAndLoad.

(** * The model at work

    The theorems above, applied to the end-to-end scenario with the literal
    route guard. *)

Example usersWorld_nav :
  renderSection (RT := literalRouter) "/users"
    (getSection 1 "nav" (Some false) usersWorld).1 = ["NavHome"; "NavUsers"].
Proof. vm_compute. reflexivity. Qed.

Example usersWorld_main :
  renderSection (RT := literalRouter) "/users"
    (getSection 1 "main" None usersWorld).1 = ["UsersPage"].
Proof. vm_compute. reflexivity. Qed.

Lemma exclusive_first_match_witness :
  (renderSection (RT := literalRouter) "/a"
     (mainScenario "P1" "P2" (Some true) (emptyWorld (SC := listContainer) string)).1
   = ["P1"]
   ∧ renderSection (RT := literalRouter) "/b"
       (mainScenario "P1" "P2" (Some true) (emptyWorld (SC := listContainer) string)).1
     = ["P2"])
  ∧ renderSection (RT := literalRouter) "/users"
      (getSection 1 "main" (Some true) usersWorld).1 = ["UsersPage"]
  ∧ renderSection (RT := literalRouter) "/elsewhere"
      (getSection 1 "main" (Some true) usersWorld).1 = [].
Proof.
  destruct (exclusive_first_match (SC := listContainer) (RT := literalRouter)
              "P1" "P2" (emptyWorld string)) as (Ha & Hb & Hgen);
    [reflexivity | reflexivity | reflexivity |].
  split; [by split|].
  destruct (Hgen usersWorld 1 "main" "/users") as (_ & Hfirst & _).
  destruct (Hgen usersWorld 1 "main" "/elsewhere") as (_ & _ & Hnone).
  split.
  - apply (Hfirst 2 {| section := "main"; path := "/users";
                       Component := "UsersPage"; exact := true |});
      [reflexivity | reflexivity | reflexivity |].
    intros j q Hj Hlt Hsec.
    destruct j as [|[|j]]; [| |lia]; injection Hj as <-; discriminate Hsec.
  - apply Hnone. intros p Hp Hsec.
    apply list_elem_of_lookup in Hp as [i Hi].
    destruct i as [|[|[|i]]]; [| | |discriminate Hi];
      injection Hi as <-; first [discriminate Hsec | reflexivity].
Defined.

Lemma getSection_section_filtering_witness :
  children (getSection 1 "nav" None usersWorld).1
  = [ Route 0 {| section := "nav"; path := "/"; Component := "NavHome"; exact := false |};
      Route 1 {| section := "nav"; path := "/users"; Component := "NavUsers"; exact := false |} ]
  ∧ (∃ i, Route i {| section := "nav"; path := "/users"; Component := "NavUsers";
                     exact := false |}
          ∈ children (getSection 1 "nav" None usersWorld).1)
  ∧ {| section := "main"; path := "/users"; Component := "UsersPage"; exact := true |}
    ∉ filter (λ p, section p = "nav") (parts (hosts usersWorld 1)).
Proof.
  destruct (getSection_section_filtering (SC := listContainer) usersWorld 1 "nav" None)
    as (Hchildren & _ & _ & Hhas & Hnot & _).
  split_and!.
  - exact Hchildren.
  - apply Hhas; [|reflexivity]. apply list_elem_of_lookup. by exists 1.
  - apply Hnot; [|discriminate]. apply list_elem_of_lookup. by exists 2.
Defined.

Lemma non_exclusive_all_match_witness :
  renderSection (RT := literalRouter) "/a"
    (mainScenario "P1" "P2" (Some false) (emptyWorld (SC := listContainer) string)).1
  = ["P1"; "P2"]
  ∧ "NavUsers" ∈ renderSection (RT := literalRouter) "/users"
                   (getSection 1 "nav" (Some false) usersWorld).1.
Proof.
  destruct (non_exclusive_all_match (SC := listContainer) (RT := literalRouter)
              "P1" "P2" (emptyWorld string)) as (Hboth & Hgen);
    [reflexivity | reflexivity |].
  split; [exact Hboth|].
  destruct (Hgen usersWorld 1 "nav" "/users") as (_ & _ & Hshown).
  apply (Hshown {| section := "nav"; path := "/users"; Component := "NavUsers";
                   exact := false |}); [|reflexivity|reflexivity].
  apply list_elem_of_lookup. by exists 1.
Defined.

Lemma getSection_empty_section_witness :
  getSection 1 "missing-name" None usersWorld
  = ({| type := Switch; children := [] |}, usersWorld)
  ∧ renderSection (RT := literalRouter) "/users"
      (getSection 1 "missing-name" None usersWorld).1 = [].
Proof.
  destruct (getSection_empty_section (SC := listContainer) (RT := literalRouter)
              usersWorld 1 "missing-name" None) as (Hel & Hshown).
  - intros p Hp. apply list_elem_of_lookup in Hp as [i Hi].
    destruct i as [|[|[|i]]]; [| | |discriminate Hi];
      injection Hi as <-; discriminate.
  - split; [exact Hel|apply Hshown].
Defined.

Lemma addPart_appends_and_chains_witness :
  parts (hosts (addPart 1 "/about" "About" None None usersWorld).2 1) !! 0
  = Some {| section := "nav"; path := "/"; Component := "NavHome"; exact := false |}
  ∧ hosts (addPart 1 "/about" "About" None None usersWorld).2 0 = hosts usersWorld 0.
Proof.
  destruct (addPart_appends_and_chains (SC := listContainer) usersWorld 1
              "/about" "About" None None)
    as (_ & _ & _ & Hkept & _ & Hother & _).
  split.
  - apply Hkept. reflexivity.
  - apply Hother. discriminate.
Defined.

Lemma parts_append_only_witness :
  parts (hosts (performAll 1 readingOps usersWorld).2 1) !! 2
  = Some {| section := "main"; path := "/users"; Component := "UsersPage"; exact := true |}
  ∧ parts (hosts (perform 0 otherCall usersWorld).2 1)
    = parts (hosts usersWorld 1).
Proof.
  destruct (parts_append_only (SC := listContainer) usersWorld 1)
    as (_ & _ & _ & Hkept & Hother).
  split.
  - apply Hkept. reflexivity.
  - apply Hother. discriminate.
Defined.



(** ** The further properties, applied *)

Lemma setInitialState_assigns_witness :
  objects (setInitialState (SC := listContainer) 1 "users" 0 usersWorld).2 0 !! "nav"
  = objects usersWorld 0 !! "nav"
  ∧ objects (setInitialState (SC := listContainer) 1 "users" 0 usersWorld).2 5 = objects usersWorld 5.
Proof.
  destruct (setInitialState_assigns (SC := listContainer) usersWorld 1 "users" 0)
    as (_ & _ & Hkeys & Hobjects & _); [discriminate|].
  split.
  - apply Hkeys. discriminate.
  - apply Hobjects. discriminate.
Defined.

Lemma initialState_last_write_wins_witness :
  objects (performAll 1 mixedOps usersWorld).2 0 !! "users" = Some 9
  ∧ objects (performAll 1 mixedOps usersWorld).2 0 !! "session"
    = objects usersWorld 0 !! "session".
Proof.
  destruct (initialState_last_write_wins (SC := listContainer) usersWorld 1 mixedOps)
    as (_ & _ & Hlast & Hnone).
  { intros value Hin.
    repeat (apply elem_of_cons in Hin as [Hin|Hin]; [discriminate Hin|]).
    by apply elem_of_nil in Hin. }
  split.
  - apply (Hlast (take 5 mixedOps) (drop 6 mixedOps)); [reflexivity|].
    intros value' Hin.
    repeat (apply elem_of_cons in Hin as [Hin|Hin]; [discriminate Hin|]).
    by apply elem_of_nil in Hin.
  - apply Hnone. intros value Hin.
    repeat (apply elem_of_cons in Hin as [Hin|Hin]; [discriminate Hin|]).
    by apply elem_of_nil in Hin.
Defined.

Lemma first_store_from_registrations_witness :
  stores (store 1 (performAll 1 mixedOps
                     (constructor (emptyWorld (SC := listContainer) string)).2).2).2
  = [ Build_StoreCall (SC := listContainer) [1; 2] 0 [3; 4; 5] ]
  ∧ objects (store 1 (performAll 1 mixedOps
                        (constructor (emptyWorld (SC := listContainer) string)).2).2).2
      0
    = assignAll ∅ mixedOps.
Proof.
  destruct (first_store_from_registrations (SC := listContainer)
              (emptyWorld string) mixedOps) as (Hstores & _ & Hobject).
  - repeat constructor.
  - split; [exact Hstores|]. apply Hobject. intros value Hin.
    repeat (apply elem_of_cons in Hin as [Hin|Hin]; [discriminate Hin|]).
    by apply elem_of_nil in Hin.
Defined.

Lemma stores_are_per_host_witness :
  (store 1 twoHostsWorld).1 ≠ (store 3 (store 1 twoHostsWorld).2).1
  ∧ (store 1 (store 3 (store 1 twoHostsWorld).2).2).1 = (store 1 twoHostsWorld).1.
Proof.
  destruct (stores_are_per_host (SC := listContainer) twoHostsWorld 1 3)
    as (Hne & _ & Hthis & _); [discriminate|reflexivity|reflexivity|].
  split; [exact Hne|]. cbv zeta in Hthis. by rewrite Hthis.
Defined.

Lemma getSection_keys_witness :
  r_key (Route 1 {| section := "nav"; path := "/users"; Component := "NavUsers";
                    exact := false |}) = 1.
Proof.
  destruct (getSection_keys (SC := listContainer) usersWorld 1 "nav" (Some false))
    as (_ & _ & Hkey).
  apply Hkey. reflexivity.
Defined.

Lemma getSection_routes_are_stable_witness :
  children (getSection 1 "nav" None (performAll 1 mixedOps usersWorld).2).1 !! 0
  = Some (Route 0 {| section := "nav"; path := "/"; Component := "NavHome";
                     exact := false |}).
Proof.
  destruct (getSection_routes_are_stable (SC := listContainer) usersWorld 1 mixedOps
              "nav" None) as (_ & _ & Hkept).
  apply Hkept. reflexivity.
Defined.

Lemma loadComponents_hands_over_witness :
  js_value 2 ∈ (loadComponents (reportingWaiter string) 1 threeModules (Some "setup")
                  usersWorld).1.1
  ∧ loadComponents (reportingWaiter string) 1
      {| keys := ["./legacy.component"; "./empty.component"];
         required := required threeModules |} (Some "setup") usersWorld
    = (([], 1), usersWorld).
Proof.
  destruct (loadComponents_hands_over (SC := listContainer) (reportingWaiter string)
              usersWorld 1 threeModules (Some "setup")) as (Hrun & _ & Hin & _).
  destruct (loadComponents_hands_over (SC := listContainer) (reportingWaiter string)
              usersWorld 1
              {| keys := ["./legacy.component"; "./empty.component"];
                 required := required threeModules |} (Some "setup"))
    as (_ & _ & _ & _ & Hnone).
  split.
  - rewrite Hrun. apply Hin. exists "./nav.component", 2.
    split; [|by split]. do 3 right. left.
  - apply Hnone. intros key Hkey.
    repeat (apply elem_of_cons in Hkey as [->|Hkey]; [reflexivity|]).
    by apply elem_of_nil in Hkey.
Defined.

Lemma loadComponents_dirname_is_ignored_witness :
  loadComponents_dirname (reportingWaiter string) oneDirectory "/app/lib" 1
    "/app/lib/components" usersWorld
  = loadComponents_dirname (reportingWaiter string) oneDirectory "/app/lib" 1
      "/elsewhere" usersWorld
  ∧ js_value 1 ∈ (loadComponents_dirname (reportingWaiter string) oneDirectory
                    "/app/lib" 1 "/elsewhere" usersWorld).1.1.
Proof.
  destruct (loadComponents_dirname_is_ignored (SC := listContainer)
              (reportingWaiter string) oneDirectory "/app/lib" usersWorld 1 "/elsewhere")
    as (Hrun & Hsame & _ & Hin).
  split; [apply Hsame|].
  rewrite Hrun. apply Hin. exists "./users/component", 1.
  split; [left|by split].
Defined.

Lemma sections_partition_the_parts_witness :
  length (children (getSection 1 "nav" None usersWorld).1)
  + (length (children (getSection 1 "main" None usersWorld).1)
     + (length (children (getSection 1 "footer" None usersWorld).1) + 0))
  = 3.
Proof.
  apply (sections_partition_the_parts (SC := listContainer) usersWorld 1
           ["nav"; "main"; "footer"] None).
  - repeat (apply list.NoDup_cons; split;
            [intros Hin;
             repeat (apply elem_of_cons in Hin as [Hin|Hin]; [discriminate Hin|]);
             by apply elem_of_nil in Hin|]).
    apply NoDup_nil_2.
  - intros p Hp. apply list_elem_of_lookup in Hp as [i Hi].
    destruct i as [|[|[|i]]]; [| | |discriminate Hi]; injection Hi as <-.
    + left.
    + left.
    + right. left.
Defined.
